(** * DriftWise (SplitKit): the balances engine and the allocation helpers

    A shallow embedding of the arithmetic core of
    [src/2.split_kit_apple_clean_bill_splitter_web_prototype.jsx]:
    [allocateProportional] (with [allocateEqual] and [allocatePercent]),
    [computeNetByUser] and [suggestSettlements]; and of the code of the
    components [AddExpenseForm], [GroupView], [Home] and [GroupCard] that
    calls them.

    Conventions of the embedding.

    - A JavaScript [number] is either [NaN] or a finite value.  Finite values
      are exact rationals ([Q], compared with [==]): the rounding error of
      binary64 arithmetic is not modelled, and neither are the infinities.
      [NaN] is kept because the engine produces it from [undefined]
      (an absent property read by [+=], an array read past its end).
    - [Math.round] rounds to the nearest integer, a tie going up:
      [Math.round(x) = floor(x + 1/2)].
    - A [Record<string, number>] is an association list in insertion order
      with unique keys: assigning to an existing key keeps its position,
      assigning to a new key appends.  This is the order of [Object.keys] and
      [Object.entries] for keys that are not canonical array indices, which is
      the case of the identifiers the application generates.
    - [Array.prototype.sort] is stable; for the comparators used here
      (a difference of two numeric fields) the result is the stable ordering
      computed by insertion.
    - The [for]/[forEach] loops over arrays are folds over lists; the [while]
      loop of [suggestSettlements] is a step function iterated with fuel, and
      the fuel that the entry point supplies is proved sufficient. *)

From Stdlib Require Import QArith Qround Qabs Qminmax ZArith List String Bool.
From Stdlib Require Import Lia Lqa Permutation Sorted Arith.
Import ListNotations.
Open Scope Q_scope.

Set Implicit Arguments.

(** ** JavaScript numbers *)

Module JS.

Inductive number : Type :=
  | NaN : number
  | Num : Q -> number.

(** Same value, finite values up to [==]. *)
Definition same (a b : number) : Prop :=
  match a, b with
  | NaN, NaN => True
  | Num p, Num q => p == q
  | _, _ => False
  end.

(** [ToNumber] of a property read: [undefined] becomes [NaN]. *)
Definition toNumber (v : option number) : number :=
  match v with
  | Some x => x
  | None => NaN
  end.

Definition add (a b : number) : number :=
  match a, b with
  | Num p, Num q => Num (p + q)
  | _, _ => NaN
  end.

Definition sub (a b : number) : number :=
  match a, b with
  | Num p, Num q => Num (p - q)
  | _, _ => NaN
  end.

(** [p < q] on finite values. *)
Definition Qlt_bool (p q : Q) : bool := negb (Qle_bool q p).

Definition Math_floor (x : Q) : Z := Qfloor x.

Definition Math_round (x : Q) : Z := Qfloor (x + (1 # 2)).

Definition Math_min (x y : Q) : Q := Qmin x y.

(** [Math.round(x * 100) / 100] on a finite value. *)
Definition round2 (x : Q) : Q := inject_Z (Math_round (x * 100)) / 100.

Definition round2_number (a : number) : number :=
  match a with
  | NaN => NaN
  | Num x => Num (round2 x)
  end.

(** *** Objects used as string-keyed maps *)

Definition object : Type := list (string * number).

Fixpoint get (k : string) (o : object) : option number :=
  match o with
  | [] => None
  | (k', v) :: r => if String.eqb k k' then Some v else get k r
  end.

Fixpoint set (k : string) (v : number) (o : object) : object :=
  match o with
  | [] => [(k, v)]
  | (k', v') :: r =>
      if String.eqb k k' then (k', v) :: r else (k', v') :: set k v r
  end.

Definition keys (o : object) : list string := map fst o.

Definition values (o : object) : list number := map snd o.

Definition entries (o : object) : list (string * number) := o.

(** [Object.fromEntries]: later entries override earlier ones. *)
Definition fromEntries (l : list (string * number)) : object :=
  fold_left (fun o kv => set (fst kv) (snd kv) o) l [].

(** [o[k] += x] and [o[k] -= x]. *)
Definition plus_assign (k : string) (x : Q) (o : object) : object :=
  set k (add (toNumber (get k o)) (Num x)) o.

Definition minus_assign (k : string) (x : Q) (o : object) : object :=
  set k (sub (toNumber (get k o)) (Num x)) o.

(** [Object.values(o).reduce((a, b) => a + b, 0)], the sum the test runner
    of the source takes of a result. *)
Definition sum (o : object) : number :=
  fold_left add (values o) (Num 0).

(** *** Arrays *)

(** [l.map((v, i) => f i v)]. *)
Fixpoint mapi_from {A B : Type} (n : nat) (f : nat -> A -> B) (l : list A)
  : list B :=
  match l with
  | [] => []
  | x :: r => f n x :: mapi_from (S n) f r
  end.

Definition mapi {A B : Type} (f : nat -> A -> B) (l : list A) : list B :=
  mapi_from 0 f l.

(** [a[i] += 1] on an array of integers, for [i] within the array. *)
Fixpoint incr (i : nat) (a : list Z) : list Z :=
  match a, i with
  | [], _ => []
  | x :: r, O => (x + 1)%Z :: r
  | x :: r, S i' => x :: incr i' r
  end.

(** Stable sort with a comparator [cmp a b] whose sign orders [a] and [b]:
    [a] stays before a later [b] unless [cmp a b > 0]. *)
Section Sort.
Variable A : Type.
Variable cmp : A -> A -> Q.

Fixpoint insert (x : A) (l : list A) : list A :=
  match l with
  | [] => [x]
  | y :: r => if Qle_bool (cmp x y) 0 then x :: y :: r else y :: insert x r
  end.

Fixpoint sort (l : list A) : list A :=
  match l with
  | [] => []
  | x :: r => insert x (sort r)
  end.
End Sort.

End JS.

Import JS.

(** ** Types of the source *)

Module User.
Record t : Type := mk { id : string; name : string }.
End User.

Module Group.
Record t : Type := mk {
  id : string; name : string; currency : string; members : list User.t }.
End Group.

Module ExpenseShare.
Record t : Type := mk { userId : string; amount : Q }.
End ExpenseShare.

Module Expense.
Record t : Type := mk {
  id : string; groupId : string; title : string; amount : Q;
  payerId : string; date : string; note : option string;
  shares : list ExpenseShare.t }.
End Expense.

Module Settlement.
Record t : Type := mk {
  id : string; groupId : string; fromUser : string; toUser : string;
  amount : Q; date : string; method : option string }.
End Settlement.

(** ** Allocation helpers *)

(** An entry [{i, frac}] of [fracIdx]. *)
Module FracIdx.
Record t : Type := mk { i : nat; frac : Q }.
End FracIdx.

(** [for (let k=0; k<fracIdx.length && remainder>0; k++)
       { base[fracIdx[k].i]+=1; remainder--; }] *)
Fixpoint distribute (fracIdx : list FracIdx.t) (remainder : Z) (base : list Z)
  : list Z :=
  match fracIdx with
  | [] => base
  | e :: rest =>
      if (0 <? remainder)%Z
      then distribute rest (remainder - 1)%Z (incr (FracIdx.i e) base)
      else base
  end.

(** [base[idx]/100], [NaN] when [base[idx]] is [undefined]. *)
Definition centsToAmount (c : option Z) : number :=
  match c with
  | Some z => Num (inject_Z z / 100)
  | None => NaN
  end.

Definition allocateProportional
  (memberIds : list string) (weights : list Q) (totalAmount : Q) : object :=
  let totalCents := Math_round (totalAmount * 100) in
  let sumW := fold_left Qplus weights 0 in
  if Qle_bool sumW 0 || (totalCents =? 0)%Z
  then fromEntries (map (fun id => (id, Num 0)) memberIds)
  else
    let raw := map (fun w => (inject_Z totalCents * w) / sumW) weights in
    let base := map Math_floor raw in
    let remainder := (totalCents - fold_left Z.add base 0)%Z in
    let fracIdx :=
      sort (fun a b => FracIdx.frac b - FracIdx.frac a)
           (mapi (fun i v => FracIdx.mk i (v - inject_Z (Math_floor v))) raw) in
    let base := distribute fracIdx remainder base in
    fold_left (fun out p => set (snd p) (centsToAmount (nth_error base (fst p))) out)
              (mapi (fun idx id => (idx, id)) memberIds) [].



(** ** Balances engine *)

Definition computeNetByUser
  (group : Group.t) (expenses : list Expense.t) (settlements : list Settlement.t)
  : object :=
  let net := fold_left (fun net m => set (User.id m) (Num 0) net)
                       (Group.members group) [] in
  let net :=
    fold_left
      (fun net e =>
         fold_left
           (fun net s =>
              minus_assign (ExpenseShare.userId s) (ExpenseShare.amount s) net)
           (Expense.shares e)
           (plus_assign (Expense.payerId e) (Expense.amount e) net))
      (filter (fun x => String.eqb (Expense.groupId x) (Group.id group)) expenses)
      net in
  let net :=
    fold_left
      (fun net s =>
         minus_assign (Settlement.toUser s) (Settlement.amount s)
           (plus_assign (Settlement.fromUser s) (Settlement.amount s) net))
      (filter (fun x => String.eqb (Settlement.groupId x) (Group.id group))
              settlements)
      net in
  fold_left (fun net k => set k (round2_number (toNumber (get k net))) net)
            (keys net) net.

(** An entry [{id, amt}] of [debtors] or [creditors]. *)
Module Party.
Record t : Type := mk { id : string; amt : Q }.
End Party.

(** A suggested transfer [{from, to, amount}]. *)
Module Transfer.
Record t : Type := mk { from : string; to : string; amount : Q }.
End Transfer.

(** One turn of [for (const [id,v] of Object.entries(net))]:
    [if (v<-0.009) debtors.push({id,amt:-v});
     if (v>0.009) creditors.push({id,amt:v});]
    on the pair of the two arrays.  Both comparisons are false for [NaN]. *)
Definition pushParty
  (acc : list Party.t * list Party.t) (kv : string * number)
  : list Party.t * list Party.t :=
  match snd kv with
  | Num v =>
      (if Qlt_bool v (- (9 # 1000))
       then fst acc ++ [Party.mk (fst kv) (- v)] else fst acc,
       if Qlt_bool (9 # 1000) v
       then snd acc ++ [Party.mk (fst kv) v] else snd acc)
  | NaN => acc
  end.

(** [l[k].amt = a], for [k] within the array. *)
Fixpoint setAmt (k : nat) (a : Q) (l : list Party.t) : list Party.t :=
  match l, k with
  | [], _ => []
  | p :: r, O => Party.mk (Party.id p) a :: r
  | p :: r, S k' => p :: setAmt k' a r
  end.

(** The variables of the matching loop. *)
Record loopState : Type := mkState {
  debtors : list Party.t;
  creditors : list Party.t;
  i : nat;
  j : nat;
  out : list Transfer.t }.

(** One iteration of the [while] loop; [None] when the guard
    [i<debtors.length && j<creditors.length] is false. *)
Definition loopStep (s : loopState) : option loopState :=
  match nth_error (debtors s) (i s), nth_error (creditors s) (j s) with
  | Some d, Some c =>
      let pay := Math_min (Party.amt d) (Party.amt c) in
      let damt := Party.amt d - pay in
      let camt := Party.amt c - pay in
      Some {| debtors := setAmt (i s) damt (debtors s);
              creditors := setAmt (j s) camt (creditors s);
              i := if Qlt_bool damt (1 # 100) then S (i s) else i s;
              j := if Qlt_bool camt (1 # 100) then S (j s) else j s;
              out := out s ++ [Transfer.mk (Party.id d) (Party.id c) (round2 pay)] |}
  | _, _ => None
  end.

(** The loop run for at most [fuel] iterations: the state at exit, or [None]
    when the guard still holds after [fuel] iterations. *)
Fixpoint runLoop (fuel : nat) (s : loopState) : option loopState :=
  match loopStep s with
  | None => Some s
  | Some s' =>
      match fuel with
      | O => None
      | S fuel' => runLoop fuel' s'
      end
  end.

(** [suggestSettlements] with the number of loop iterations bounded by the
    number of debtors plus the number of creditors; [None] would mean that
    the loop needs more iterations than that. *)
Definition suggestSettlements
  (group : Group.t) (expenses : list Expense.t) (settlements : list Settlement.t)
  : option (list Transfer.t) :=
  let net := computeNetByUser group expenses settlements in
  let parties := fold_left pushParty (entries net) ([], []) in
  let debtors := sort (fun a b => Party.amt b - Party.amt a) (fst parties) in
  let creditors := sort (fun a b => Party.amt b - Party.amt a) (snd parties) in
  let s := {| debtors := debtors; creditors := creditors;
              i := 0; j := 0; out := [] |} in
  option_map out (runLoop (List.length debtors + List.length creditors) s).

(** * Vocabulary of the statements *)

(** ** Names for the intermediate values of the source *)

(** [sumW]. *)
Definition sumWeights (weights : list Q) : Q := fold_left Qplus weights 0.

(** [raw]: the ideal share of each position, in cents. *)
Definition rawShares (totalCents : Z) (weights : list Q) : list Q :=
  let sumW := sumWeights weights in
  map (fun w => (inject_Z totalCents * w) / sumW) weights.

(** [fracIdx]. *)
Definition sortedFracIdx (raw : list Q) : list FracIdx.t :=
  sort (fun a b => FracIdx.frac b - FracIdx.frac a)
       (mapi (fun i v => FracIdx.mk i (v - inject_Z (Math_floor v))) raw).

(** The array [base] when the final [forEach] of [allocateProportional]
    reads it. *)
Definition allocateCents (totalCents : Z) (weights : list Q) : list Z :=
  let raw := rawShares totalCents weights in
  let base := map Math_floor raw in
  let remainder := (totalCents - fold_left Z.add base 0)%Z in
  distribute (sortedFracIdx raw) remainder base.

(** The body of the loop over the expenses, and of the loop over the
    settlements, of [computeNetByUser]. *)
Definition applyExpense (net : object) (e : Expense.t) : object :=
  fold_left
    (fun net s => minus_assign (ExpenseShare.userId s) (ExpenseShare.amount s) net)
    (Expense.shares e)
    (plus_assign (Expense.payerId e) (Expense.amount e) net).

Definition applySettlement (net : object) (s : Settlement.t) : object :=
  minus_assign (Settlement.toUser s) (Settlement.amount s)
    (plus_assign (Settlement.fromUser s) (Settlement.amount s) net).

(** The object [net] of [computeNetByUser] before the final rounding loop. *)
Definition netBeforeRounding
  (group : Group.t) (expenses : list Expense.t) (settlements : list Settlement.t)
  : object :=
  let net := fold_left (fun net m => set (User.id m) (Num 0) net)
                       (Group.members group) [] in
  let net := fold_left applyExpense
               (filter (fun x => String.eqb (Expense.groupId x) (Group.id group))
                       expenses) net in
  fold_left applySettlement
    (filter (fun x => String.eqb (Settlement.groupId x) (Group.id group))
            settlements) net.

(** The arrays [debtors] and [creditors] of [suggestSettlements] before
    sorting. *)
Definition debtorsOf (net : object) : list Party.t :=
  flat_map (fun kv => match snd kv with
                      | Num v => if Qlt_bool v (- (9 # 1000))
                                 then [Party.mk (fst kv) (- v)] else []
                      | NaN => []
                      end) (entries net).

Definition creditorsOf (net : object) : list Party.t :=
  flat_map (fun kv => match snd kv with
                      | Num v => if Qlt_bool (9 # 1000) v
                                 then [Party.mk (fst kv) v] else []
                      | NaN => []
                      end) (entries net).

Definition sortParties (l : list Party.t) : list Party.t :=
  sort (fun a b => Party.amt b - Party.amt a) l.

(** The variables of [suggestSettlements] when the matching loop starts. *)
Definition initialState (net : object) : loopState :=
  {| debtors := sortParties (debtorsOf net);
     creditors := sortParties (creditorsOf net);
     i := 0; j := 0; out := [] |}.

(** ** Predicates *)


(** A multiple of 0.01. *)
Definition isCent (q : Q) : Prop := exists z : Z, q == inject_Z z / 100.


(** The sum of a list of finite values. *)
Definition Qsum (l : list Q) : Q := fold_right Qplus 0 l.


(** [a[k] += 1] for each [k] of [idxs] in turn. *)
Definition incrAll (idxs : list nat) (a : list Z) : list Z :=
  fold_left (fun b k => incr k b) idxs a.


(** The entries that the final [forEach] of [allocateProportional] assigns,
    in order: [out[id] = base[idx]/100]. *)
Definition allocationEntries (memberIds : list string) (base : list Z)
  : list (string * number) :=
  mapi (fun idx id => (id, centsToAmount (nth_error base idx))) memberIds.

(** [memberIds.lastIndexOf(id)], [None] for -1. *)
Fixpoint lastIndexOf (id : string) (l : list string) : option nat :=
  match l with
  | [] => None
  | x :: r =>
      match lastIndexOf id r with
      | Some k => Some (S k)
      | None => if String.eqb id x then Some 0%nat else None
      end
  end.






(** ** Vocabulary for the balances engine *)

Definition groupMemberIds (group : Group.t) : list string :=
  map User.id (Group.members group).

Definition expensesOf (group : Group.t) (expenses : list Expense.t)
  : list Expense.t :=
  filter (fun x => String.eqb (Expense.groupId x) (Group.id group)) expenses.

Definition settlementsOf (group : Group.t) (settlements : list Settlement.t)
  : list Settlement.t :=
  filter (fun x => String.eqb (Settlement.groupId x) (Group.id group)) settlements.

(** What one expense contributes to the balance of [k]: the full amount if
    [k] paid, minus the shares of [k]. *)
Definition expenseDelta (k : string) (e : Expense.t) : Q :=
  (if String.eqb (Expense.payerId e) k then Expense.amount e else 0)
  - Qsum (map ExpenseShare.amount
              (filter (fun s => String.eqb (ExpenseShare.userId s) k)
                      (Expense.shares e))).

(** What one settlement contributes to the balance of [k]: the amount is
    credited to the source and debited from the destination. *)
Definition settlementDelta (k : string) (s : Settlement.t) : Q :=
  (if String.eqb (Settlement.fromUser s) k then Settlement.amount s else 0)
  - (if String.eqb (Settlement.toUser s) k then Settlement.amount s else 0).

(** The balance of [k] before rounding, as the sum of the contributions of
    the expenses and of the settlements of the group. *)
Definition netSpec
  (group : Group.t) (expenses : list Expense.t) (settlements : list Settlement.t)
  (k : string) : Q :=
  Qsum (map (expenseDelta k) (expensesOf group expenses))
  + Qsum (map (settlementDelta k) (settlementsOf group settlements)).

(** Property [k] of [o] is a finite number equal to [q]. *)
Definition holds (o : object) (k : string) (q : Q) : Prop :=
  exists v, get k o = Some (Num v) /\ v == q.


(** The scenarios of the test runner of the source. *)
Module Scenario.
Open Scope string_scope.
Definition a : User.t := User.mk "a" "A".
Definition b : User.t := User.mk "b" "B".
Definition c : User.t := User.mk "c" "C".
Definition g2 : Group.t := Group.mk "g" "G" "USD" [a; b].
Definition g3 : Group.t := Group.mk "g" "G" "USD" [a; b; c].
(** 99 paid by [a], split 33/33/33. *)
Definition e99 : Expense.t :=
  Expense.mk "e" "g" "t" 99 "a" "d" None
             [ExpenseShare.mk "a" 33; ExpenseShare.mk "b" 33; ExpenseShare.mk "c" 33].
End Scenario.

(** *** The ledger of a computation

    The assignments that [computeNetByUser] performs on [net] after the
    initialisation, in order: an expense credits its payer and debits the
    member of each share; a settlement credits its source and debits its
    destination. *)

Inductive entry : Type :=
| Credit (k : string) (x : Q)
| Debit (k : string) (x : Q).

Definition entryKey (p : entry) : string :=
  match p with
  | Credit k _ => k
  | Debit k _ => k
  end.


Definition post (o : object) (p : entry) : object :=
  match p with
  | Credit k x => plus_assign k x o
  | Debit k x => minus_assign k x o
  end.

Definition entriesOfExpense (e : Expense.t) : list entry :=
  Credit (Expense.payerId e) (Expense.amount e)
  :: map (fun s => Debit (ExpenseShare.userId s) (ExpenseShare.amount s))
         (Expense.shares e).

Definition entriesOfSettlement (s : Settlement.t) : list entry :=
  [Credit (Settlement.fromUser s) (Settlement.amount s);
   Debit (Settlement.toUser s) (Settlement.amount s)].

Definition ledger
  (group : Group.t) (expenses : list Expense.t) (settlements : list Settlement.t)
  : list entry :=
  flat_map entriesOfExpense (expensesOf group expenses)
  ++ flat_map entriesOfSettlement (settlementsOf group settlements).

(** [net] after [group.members.forEach(m => net[m.id] = 0)]. *)
Definition initialNet (group : Group.t) : object :=
  fold_left (fun net m => set (User.id m) (Num 0) net) (Group.members group) [].

(** *** Unknown members *)

(** The identifier [k] is referenced by an expense or a settlement of the
    group. *)
Definition referenced
  (group : Group.t) (expenses : list Expense.t) (settlements : list Settlement.t)
  (k : string) : Prop :=
  (exists e, In e (expensesOf group expenses)
             /\ (Expense.payerId e = k
                 \/ exists s, In s (Expense.shares e) /\ ExpenseShare.userId s = k))
  \/ (exists s, In s (settlementsOf group settlements)
                /\ (Settlement.fromUser s = k \/ Settlement.toUser s = k)).

(** The result has entries for members of the group only. *)
Definition onlyMembers (group : Group.t) (out : object) : Prop :=
  forall k, In k (keys out) -> In k (groupMemberIds group).

(** "Silently ignoring" a reference to an unknown member: a credit or debit
    of an identifier that is not a property of [net] is skipped. *)
Definition postKnown (o : object) (p : entry) : object :=
  match get (entryKey p) o with
  | Some _ => post o p
  | None => o
  end.

(** [computeNetByUser] with every credit and debit of an unknown member
    skipped. *)
Definition netIgnoringUnknown
  (group : Group.t) (expenses : list Expense.t) (settlements : list Settlement.t)
  : object :=
  map (fun kv => (fst kv, round2_number (snd kv)))
      (fold_left postKnown (ledger group expenses settlements) (initialNet group)).

Module UnknownPayer.
Open Scope string_scope.
(** An expense of 10 paid by [x], who is not a member of [Scenario.g2], and
    owed by [a]. *)
Definition e : Expense.t :=
  Expense.mk "e" "g" "t" 10 "x" "d" None [ExpenseShare.mk "a" 10].
End UnknownPayer.

(** *** Zero sum *)







Module Unbalanced.
Open Scope string_scope.
(** Five members, and 100.02 paid by [a] and split 25.005 four ways among
    the others. *)
Definition d : User.t := User.mk "d" "D".
Definition e : User.t := User.mk "e" "E".
End Unbalanced.

(** ** Vocabulary for the settlement suggestions *)


Definition sameTransfer (t u : Transfer.t) : Prop :=
  Transfer.from t = Transfer.from u
  /\ Transfer.to t = Transfer.to u
  /\ Transfer.amount t == Transfer.amount u.

Definition sameTransfers (l1 l2 : list Transfer.t) : Prop :=
  Forall2 sameTransfer l1 l2.



(** What [k] pays and receives in a list of transfers. *)
Definition paidBy (k : string) (ts : list Transfer.t) : Q :=
  Qsum (map Transfer.amount (filter (fun t => String.eqb (Transfer.from t) k) ts)).







(** Case analysis on the condition of a conditional of the goal. *)
Ltac case_if :=
  match goal with
  | |- context [if ?b then _ else _] => destruct b
  end.

(** * The user interface around the engine

    The parts of the components [AddExpenseForm] and [GroupView] that compute
    with amounts.  A piece of React state is a field of a record, a state
    setter is a function on the record, and the values that the source draws
    from the environment ([uid()], [new Date().toISOString()]) are
    parameters. *)

(** ** Numbers read with a default *)




(** ** The form [AddExpenseForm] *)

Module Mode.
Inductive t : Type := equal | amounts | percent | weights.

Definition eqb (a b : t) : bool :=
  match a, b with
  | equal, equal | amounts, amounts | percent, percent | weights, weights => true
  | _, _ => false
  end.
End Mode.

(** The state of the form: one field for each [useState]. *)
Module Form.
Record t : Type := mk {
  title : string; amount : Q; payer : string; mode : Mode.t;
  amounts : object; perc : object; weights : object;
  amountsTouched : bool; percTouched : bool }.
End Form.


















(** ** The local database and [GroupView] *)

Module DB.
Record t : Type := mk {
  groups : list Group.t;
  expenses : list Expense.t;
  settlements : list Settlement.t }.
End DB.








(** ** Creating a group: [createGroupLocal] of [Home], and [GroupCard] *)

(** The character [','] (code 44). *)
Definition comma : Ascii.ascii := Ascii.ascii_of_nat 44.

(** [s.split(',')]. *)
Fixpoint splitComma (s : string) : list string :=
  match s with
  | EmptyString => [EmptyString]
  | String c r =>
      if Ascii.eqb c comma then EmptyString :: splitComma r
      else match splitComma r with
           | h :: t => String c h :: t
           | [] => [String c EmptyString]
           end
  end.

Section CreateGroup.

(** [String.prototype.trim] and [String.prototype.toLowerCase]. *)
Variable trim : string -> string.
Variable toLowerCase : string -> string.

(** [raw.filter(n => { const k=n.toLowerCase(); if(seen.has(k)) return false;
    seen.add(k); return true; })], with the set [seen] as a list. *)
Fixpoint uniqBy (seen : list string) (raw : list string) : list string :=
  match raw with
  | [] => []
  | n :: r =>
      let k := toLowerCase n in
      if existsb (String.eqb k) seen then uniqBy seen r
      else n :: uniqBy (k :: seen) r
  end.

(** The array [uniq] after the sort that moves the name [you] to the
    front. *)
Definition memberNames (membersRaw : string) : list string :=
  let raw := filter (fun s => negb (String.eqb s ""))
                    (map trim (splitComma membersRaw)) in
  let uniq := uniqBy [] raw in
  sort (fun a b =>
          (if String.eqb (toLowerCase a) "you" then - (1) else 0)
          - (if String.eqb (toLowerCase b) "you" then - (1) else 0))
       uniq.

(** The group that [createGroupLocal] appends to the database; [uid k] is the
    value of the [k]-th call of [uid()]. *)
Definition newGroup (uid : nat -> string) (name currency membersRaw : string)
  : Group.t :=
  let id := uid 0%nat in
  let members := mapi (fun k n => User.mk (uid (S k)) n) (memberNames membersRaw) in
  let members :=
    if (List.length members =? 0)%nat
    then members ++ [User.mk (uid 1%nat) "You"] else members in
  Group.mk id (if String.eqb name "" then "New Group"%string else name)
           currency members.

Definition createGroupLocal
  (uid : nat -> string) (name currency membersRaw : string) (prev : DB.t) : DB.t :=
  DB.mk (DB.groups prev ++ [newGroup uid name currency membersRaw])
        (DB.expenses prev) (DB.settlements prev).

(** The member [you] of [GroupCard]:
    [group.members.find(m=>m.name.trim().toLowerCase()==='you')
     || group.members[0]]. *)
Definition you (group : Group.t) : option User.t :=
  match find (fun m => String.eqb (toLowerCase (trim (User.name m))) "you")
             (Group.members group) with
  | Some m => Some m
  | None => nth_error (Group.members group) 0
  end.

End CreateGroup.

(** ** Vocabulary for the further properties *)




(** * Properties *)

(** ** Objects *)

Section ObjectFacts.

Lemma get_set_same : forall k v o, get k (set k v o) = Some v.
Proof.
  induction o as [|[k' v'] r IH]; simpl.
  - now rewrite String.eqb_refl.
  - destruct (String.eqb k k') eqn:E; simpl; rewrite E; auto.
Qed.

Lemma get_set_other : forall k k' v o, k <> k' -> get k (set k' v o) = get k o.
Proof.
  induction o as [|[k2 v2] r IH]; simpl; intros Hne.
  - destruct (String.eqb_spec k k'); congruence.
  - destruct (String.eqb_spec k' k2); simpl.
    + subst. destruct (String.eqb_spec k k2); congruence.
    + destruct (String.eqb_spec k k2); auto.
Qed.

Lemma get_In_keys : forall k o, In k (keys o) <-> get k o <> None.
Proof.
  induction o as [|[k' v'] r IH]; simpl.
  - split; [tauto | congruence].
  - destruct (String.eqb_spec k k').
    + subst. split; [congruence | auto].
    + rewrite <- IH. split; [intros [H|H]; [congruence | auto] | auto].
Qed.

Lemma get_None_keys : forall k o, get k o = None <-> ~ In k (keys o).
Proof.
  intros. rewrite get_In_keys. destruct (get k o); split; intros H; try congruence.
  exfalso. apply H. congruence.
Qed.

Lemma keys_set_present : forall k v o, In k (keys o) -> keys (set k v o) = keys o.
Proof.
  induction o as [|[k' v'] r IH]; simpl; intros H; [tauto|].
  destruct (String.eqb_spec k k'); simpl; auto.
  f_equal. apply IH. destruct H; congruence.
Qed.

Lemma keys_set_absent : forall k v o, ~ In k (keys o) -> keys (set k v o) = keys o ++ [k].
Proof.
  induction o as [|[k' v'] r IH]; simpl; intros H; auto.
  destruct (String.eqb_spec k k'); simpl.
  - subst. tauto.
  - f_equal. apply IH. tauto.
Qed.

Lemma set_absent : forall k v o, ~ In k (keys o) -> set k v o = o ++ [(k, v)].
Proof.
  induction o as [|[k' v'] r IH]; simpl; intros H; auto.
  destruct (String.eqb_spec k k'); simpl.
  - subst. tauto.
  - f_equal. apply IH. tauto.
Qed.

Lemma In_keys_set : forall k k' v o, In k (keys (set k' v o)) <-> k = k' \/ In k (keys o).
Proof.
  intros. destruct (in_dec string_dec k' (keys o)) as [H|H].
  - rewrite keys_set_present by auto. split; [auto | intros [->|]; auto].
  - rewrite keys_set_absent by auto. rewrite in_app_iff. simpl.
    split; [intros [|[|[]]]; auto | intros [|]; auto].
Qed.

Lemma NoDup_keys_set : forall k v o, NoDup (keys o) -> NoDup (keys (set k v o)).
Proof.
  intros. destruct (in_dec string_dec k (keys o)) as [H1|H1].
  - now rewrite keys_set_present.
  - rewrite keys_set_absent by auto.
    apply NoDup_app; auto.
    + repeat constructor; simpl; tauto.
    + intros x Hx [<-|[]]. auto.
Qed.

Lemma get_In : forall k v o, NoDup (keys o) -> In (k, v) o <-> get k o = Some v.
Proof.
  induction o as [|[k' v'] r IH]; simpl; intros ND.
  - split; [tauto | congruence].
  - inversion ND; subst. destruct (String.eqb_spec k k').
    + subst. split.
      * intros [H|H]; [congruence|]. exfalso. apply H1.
        change k' with (fst (k', v)). now apply in_map.
      * intros [= ->]. auto.
    + rewrite <- IH by auto. split; [intros [H|H]; [congruence | auto] | auto].
Qed.

Lemma keys_map_values : forall (f : number -> number) (o : object),
    keys (map (fun kv => (fst kv, f (snd kv))) o) = keys o.
Proof.
  intros. unfold keys. rewrite map_map. now apply map_ext.
Qed.

Lemma get_map_values : forall (f : number -> number) k (o : object),
    get k (map (fun kv => (fst kv, f (snd kv))) o) = option_map f (get k o).
Proof.
  induction o as [|[k' v'] r IH]; simpl; auto.
  destruct (String.eqb k k'); auto.
Qed.

End ObjectFacts.

(** ** Rounding *)

Section Rounding.




Lemma round2_comp : forall x y : Q, x == y -> round2 x == round2 y.
Proof.
  intros x y H. unfold round2, Math_round. now rewrite H.
Qed.












Lemma Qlt_bool_false_iff : forall p q : Q, Qlt_bool p q = false <-> q <= p.
Proof.
  intros. unfold Qlt_bool. rewrite negb_false_iff. apply Qle_bool_iff.
Qed.

End Rounding.

(** ** Sums *)

Section Sums.











End Sums.

(** ** The stable sort *)

Section SortFacts.

Variable A : Type.
Variable key : A -> Q.

Lemma insert_perm : forall (cmp : A -> A -> Q) (x : A) (l : list A),
    Permutation (insert cmp x l) (x :: l).
Proof.
  induction l as [|y r IH]; simpl; auto.
  destruct (Qle_bool (cmp x y) 0); auto.
  rewrite IH. apply perm_swap.
Qed.

Lemma sort_perm : forall (cmp : A -> A -> Q) (l : list A),
    Permutation (sort cmp l) l.
Proof.
  induction l as [|x r IH]; simpl; auto.
  rewrite insert_perm. auto.
Qed.



End SortFacts.

(** ** Arrays *)

Section ArrayFacts.

Lemma length_incr : forall (i : nat) (a : list Z), List.length (incr i a) = List.length a.
Proof.
  intros i a; revert i; induction a as [|x r IH]; intros [|i]; simpl; auto.
Qed.




Lemma length_incrAll : forall (idxs : list nat) (a : list Z),
    List.length (incrAll idxs a) = List.length a.
Proof.
  induction idxs as [|k r IH]; intros a; simpl; auto.
  unfold incrAll in *. simpl. rewrite IH. apply length_incr.
Qed.




Lemma In_mapi_from : forall (A B : Type) (f : nat -> A -> B) (l : list A) (n : nat) (y : B),
    In y (mapi_from n f l) <->
    exists k x, nth_error l k = Some x /\ y = f (n + k)%nat x.
Proof.
  induction l as [|a r IH]; intros n y; simpl.
  - split; [tauto|]. intros (k & x & H & _). destruct k; discriminate.
  - rewrite IH. split.
    + intros [H|(k & x & H1 & H2)].
      * exists 0%nat, a. rewrite Nat.add_0_r. auto.
      * exists (S k), x. rewrite Nat.add_succ_r. auto.
    + intros ([|k] & x & H1 & H2); simpl in H1.
      * injection H1 as ->. rewrite Nat.add_0_r in H2. auto.
      * right. exists k, x. rewrite Nat.add_succ_r in H2. auto.
Qed.

Lemma map_mapi_from : forall (A B C : Type) (g : B -> C) (f : nat -> A -> B) (l : list A) (n : nat),
    map g (mapi_from n f l) = mapi_from n (fun i x => g (f i x)) l.
Proof.
  induction l as [|a r IH]; intros n; simpl; auto. now rewrite IH.
Qed.


Lemma mapi_from_value : forall (A B : Type) (f : A -> B) (l : list A) (n : nat),
    mapi_from n (fun _ x => f x) l = map f l.
Proof.
  induction l as [|a r IH]; intros n; simpl; auto. now rewrite IH.
Qed.

End ArrayFacts.

(** ** The largest-remainder allocation *)

Section AllocationFacts.

Lemma distribute_incrAll : forall (fracIdx : list FracIdx.t) (r : Z) (base : list Z),
    distribute fracIdx r base
    = incrAll (map FracIdx.i (firstn (Z.to_nat r) fracIdx)) base.
Proof.
  induction fracIdx as [|e rest IH]; intros r base; simpl.
  - now rewrite firstn_nil.
  - destruct (Z.ltb_spec 0 r) as [H|H].
    + rewrite IH. replace (Z.to_nat r) with (S (Z.to_nat (r - 1))) by lia.
      reflexivity.
    + replace (Z.to_nat r) with 0%nat by lia. reflexivity.
Qed.












Lemma length_rawShares : forall (totalCents : Z) (weights : list Q),
    List.length (rawShares totalCents weights) = List.length weights.
Proof.
  intros. unfold rawShares. apply length_map.
Qed.



End AllocationFacts.

Section AllocationResult.



Lemma length_allocateCents : forall (totalCents : Z) (weights : list Q),
    List.length (allocateCents totalCents weights) = List.length weights.
Proof.
  intros. unfold allocateCents. rewrite distribute_incrAll, length_incrAll.
  now rewrite length_map, length_rawShares.
Qed.



Lemma fold_set_fresh : forall (l : list (string * number)) (acc : object),
    NoDup (keys acc ++ map fst l) ->
    fold_left (fun o kv => set (fst kv) (snd kv) o) l acc = acc ++ l.
Proof.
  induction l as [|[k v] l IH]; intros acc ND; simpl.
  - now rewrite app_nil_r.
  - assert (Hk : ~ In k (keys acc)).
    { apply NoDup_remove_2 in ND. intros H. apply ND. apply in_or_app. now left. }
    rewrite IH.
    + rewrite set_absent by auto. now rewrite <- app_assoc.
    + rewrite keys_set_absent by auto. rewrite <- app_assoc. exact ND.
Qed.

Lemma fromEntries_NoDup : forall l : list (string * number),
    NoDup (map fst l) -> fromEntries l = l.
Proof.
  intros l H. unfold fromEntries. now rewrite fold_set_fresh.
Qed.

Lemma fold_left_map_entries : forall (A : Type) (f : A -> string * number)
                                     (l : list A) (acc : object),
    fold_left (fun o x => set (fst (f x)) (snd (f x)) o) l acc
    = fold_left (fun o kv => set (fst kv) (snd kv) o) (map f l) acc.
Proof.
  induction l as [|x l IH]; intros acc; simpl; auto.
Qed.

(** The two branches of [allocateProportional]. *)
Lemma allocateProportional_fallback : forall memberIds weights totalAmount,
    Qle_bool (sumWeights weights) 0 || (Math_round (totalAmount * 100) =? 0)%Z = true ->
    allocateProportional memberIds weights totalAmount
    = fromEntries (map (fun id => (id, Num 0)) memberIds).
Proof.
  intros ids ws total H. unfold allocateProportional. cbv zeta.
  change (fold_left Qplus ws 0) with (sumWeights ws). now rewrite H.
Qed.

Lemma allocateProportional_main : forall memberIds weights totalAmount,
    Qle_bool (sumWeights weights) 0 || (Math_round (totalAmount * 100) =? 0)%Z = false ->
    allocateProportional memberIds weights totalAmount
    = fromEntries (allocationEntries memberIds
                     (allocateCents (Math_round (totalAmount * 100)) weights)).
Proof.
  intros ids ws total H. unfold allocateProportional. cbv zeta.
  change (fold_left Qplus ws 0) with (sumWeights ws). rewrite H.
  change (distribute _ _ _) with (allocateCents (Math_round (total * 100)) ws).
  unfold fromEntries, allocationEntries, mapi.
  set (base := allocateCents _ _).
  rewrite (fold_left_map_entries
             (fun p : nat * string => (snd p, centsToAmount (nth_error base (fst p))))).
  now rewrite map_mapi_from.
Qed.

Lemma keys_allocationEntries : forall memberIds base,
    map fst (allocationEntries memberIds base) = memberIds.
Proof.
  intros. unfold allocationEntries, mapi. rewrite map_mapi_from. simpl.
  rewrite (mapi_from_value (fun x : string => x)). apply map_id.
Qed.




Lemma get_allocationEntries :
  forall (memberIds : list string) (base : list Z) (idx : nat) (id : string),
    NoDup memberIds ->
    nth_error memberIds idx = Some id ->
    get id (allocationEntries memberIds base) = Some (centsToAmount (nth_error base idx)).
Proof.
  intros ids base idx id ND H. apply get_In.
  - unfold keys. now rewrite keys_allocationEntries.
  - unfold allocationEntries, mapi. apply In_mapi_from. exists idx, id. auto.
Qed.

End AllocationResult.

(** ** Assignments to an object in sequence *)

Section FoldSet.

Lemma keys_fold_set : forall (l : list (string * number)) (acc : object) (k : string),
    In k (keys (fold_left (fun o kv => set (fst kv) (snd kv) o) l acc))
    <-> In k (keys acc) \/ In k (map fst l).
Proof.
  induction l as [|[k1 v1] l IH]; intros acc k; simpl.
  - tauto.
  - rewrite IH, In_keys_set. split; [intros [[->|H]|H] | intros [H|[->|H]]]; auto.
Qed.

Lemma NoDup_fold_set : forall (l : list (string * number)) (acc : object),
    NoDup (keys acc) ->
    NoDup (keys (fold_left (fun o kv => set (fst kv) (snd kv) o) l acc)).
Proof.
  induction l as [|[k1 v1] l IH]; intros acc H; simpl; auto.
  apply IH. now apply NoDup_keys_set.
Qed.

Lemma get_fold_set_notin : forall (l : list (string * number)) (acc : object) (k : string),
    ~ In k (map fst l) ->
    get k (fold_left (fun o kv => set (fst kv) (snd kv) o) l acc) = get k acc.
Proof.
  induction l as [|[k1 v1] l IH]; intros acc k H; simpl in *; auto.
  rewrite IH by tauto. apply get_set_other. intros ->. tauto.
Qed.

Lemma get_fold_set_const : forall (v : number) (ids : list string) (acc : object) (k : string),
    In k ids ->
    get k (fold_left (fun o kv => set (fst kv) (snd kv) o)
                     (map (fun id => (id, v)) ids) acc) = Some v.
Proof.
  induction ids as [|x r IH]; intros acc k H; simpl in *; [tauto|].
  destruct (in_dec string_dec k r) as [Hr|Hr].
  - now apply IH.
  - destruct H as [->|H]; [|tauto].
    rewrite get_fold_set_notin.
    + apply get_set_same.
    + rewrite map_map. simpl. now rewrite map_id.
Qed.

Lemma get_fold_set_last : forall (g : nat -> number) (ids : list string)
                                 (n : nat) (acc : object) (k : string),
    get k (fold_left (fun o kv => set (fst kv) (snd kv) o)
                     (mapi_from n (fun idx id => (id, g idx)) ids) acc)
    = match lastIndexOf k ids with
      | Some idx => Some (g (n + idx)%nat)
      | None => get k acc
      end.
Proof.
  induction ids as [|x r IH]; intros n acc k; simpl; auto.
  rewrite IH. destruct (lastIndexOf k r) as [idx|].
  - now rewrite Nat.add_succ_r.
  - destruct (String.eqb_spec k x) as [->|Hne].
    + rewrite Nat.add_0_r. apply get_set_same.
    + now apply get_set_other.
Qed.

Lemma lastIndexOf_Some : forall (k : string) (l : list string) (idx : nat),
    lastIndexOf k l = Some idx -> nth_error l idx = Some k.
Proof.
  induction l as [|x r IH]; intros idx H; simpl in *; [discriminate|].
  destruct (lastIndexOf k r) as [j|].
  - injection H as <-. simpl. now apply IH.
  - destruct (String.eqb_spec k x); [|discriminate].
    injection H as <-. simpl. congruence.
Qed.

End FoldSet.

(** ** Exactness of [allocateProportional] *)


Lemma Qle_bool_false_lt : forall x : Q, 0 < x -> Qle_bool x 0 = false.
Proof.
  intros x H. destruct (Qle_bool x 0) eqn:E; auto.
  apply Qle_bool_iff in E. lra.
Qed.



(** With distinct identifiers the result lists the members in order, each
    with the amount of its own position. *)
Lemma allocateProportional_distinct_main : forall memberIds weights totalAmount,
    NoDup memberIds ->
    Qle_bool (sumWeights weights) 0 || (Math_round (totalAmount * 100) =? 0)%Z = false ->
    allocateProportional memberIds weights totalAmount
    = allocationEntries memberIds
        (allocateCents (Math_round (totalAmount * 100)) weights).
Proof.
  intros ids ws total ND H. rewrite allocateProportional_main by auto.
  apply fromEntries_NoDup. now rewrite keys_allocationEntries.
Qed.








(** The fallback: when the sum of the weights is zero or negative, every
    member receives 0. *)
Lemma allocateProportional_no_weight : forall memberIds weights total id,
    sumWeights weights <= 0 ->
    In id memberIds ->
    get id (allocateProportional memberIds weights total) = Some (Num 0).
Proof.
  intros ids ws total id HS Hin.
  rewrite allocateProportional_fallback.
  - unfold fromEntries. now apply get_fold_set_const.
  - apply Qle_bool_iff in HS. now rewrite HS.
Qed.

(** ** Fairness of [allocateProportional] *)






(** ** Negative totals *)





(** ** Duplicated identifiers *)

(** C10: when [memberIds] repeats an identifier, the result has one entry per
    distinct identifier, holding the amount computed for the identifier's last
    position ([0] in the all-zero fallback); the amounts computed for earlier
    positions are overwritten, and the values need not add up to the total:
    [allocateProportional(['a','a'], [1,1], 0.02)] is [{a: 0.01}]. *)
Theorem allocateProportional_duplicates :
  (forall memberIds weights totalAmount,
      let out := allocateProportional memberIds weights totalAmount in
      let totalCents := Math_round (totalAmount * 100) in
      NoDup (keys out)
      /\ (forall id, In id (keys out) <-> In id memberIds)
      /\ (forall id idx,
             lastIndexOf id memberIds = Some idx ->
             get id out
             = Some (if Qle_bool (sumWeights weights) 0 || (totalCents =? 0)%Z
                     then Num 0
                     else centsToAmount
                            (nth_error (allocateCents totalCents weights) idx))))
  /\ (exists memberIds weights totalAmount,
         ~ NoDup memberIds
         /\ List.length weights = List.length memberIds
         /\ 0 < sumWeights weights
         /\ isCent totalAmount
         /\ ~ same (sum (allocateProportional memberIds weights totalAmount))
                   (Num totalAmount)).
Proof.
  split.
  - intros ids ws total out T. subst out T.
    destruct (Qle_bool (sumWeights ws) 0 || (Math_round (total * 100) =? 0)%Z) eqn:E.
    + rewrite allocateProportional_fallback by auto. unfold fromEntries.
      split; [apply NoDup_fold_set; constructor|]. split.
      * intros id. rewrite keys_fold_set, map_map. simpl. rewrite map_id.
        split; [intros [[]|H]; auto | auto].
      * intros id idx H. apply get_fold_set_const.
        apply lastIndexOf_Some in H. eapply nth_error_In; eauto.
    + rewrite allocateProportional_main by auto. unfold fromEntries.
      split; [apply NoDup_fold_set; constructor|]. split.
      * intros id. rewrite keys_fold_set, keys_allocationEntries.
        split; [intros [[]|H]; auto | auto].
      * intros id idx H. unfold allocationEntries, mapi.
        rewrite (get_fold_set_last
                   (fun idx => centsToAmount
                                 (nth_error (allocateCents (Math_round (total * 100)) ws) idx))).
        rewrite H. reflexivity.
  - exists ["a"; "a"]%string, [1; 1], (2 # 100).
    split.
    { intros H. inversion H as [|? ? Hn _]; subst. apply Hn. now left. }
    split; [reflexivity|]. split; [reflexivity|].
    split; [exists 2%Z; reflexivity|].
    intros H. vm_compute in H. discriminate.
Qed.

(** [allocateProportional(['a','a'], [1,3], 0.04)] is [{a: 0.03}]: the amount
    of position 1, the last position of [a]. *)
Lemma allocateProportional_duplicates_witness :
  get "a"%string (allocateProportional ["a"; "a"]%string [1; 3] (4 # 100))
  = Some (Num (inject_Z 3 / 100)).
Proof.
  destruct (proj1 allocateProportional_duplicates ["a"; "a"]%string [1; 3] (4 # 100))
    as (_ & _ & H).
  exact (H "a"%string 1%nat eq_refl).
Defined.

(** ** The balance of a member *)

Section Balances.

Lemma holds_comp : forall o k p q, p == q -> holds o k p -> holds o k q.
Proof.
  intros o k p q H (v & Hv & Hv'). exists v. split; auto. now rewrite Hv'.
Qed.

Lemma holds_plus_assign : forall o k k' x q,
    holds o k q ->
    holds (plus_assign k' x o) k (q + (if String.eqb k' k then x else 0)).
Proof.
  intros o k k' x q (v & Hv & Hv'). unfold plus_assign.
  destruct (String.eqb_spec k' k) as [->|Hne].
  - exists (v + x). rewrite get_set_same, Hv. simpl. split; auto. now rewrite Hv'.
  - exists v. rewrite get_set_other by auto. split; auto. rewrite Hv'. lra.
Qed.

Lemma holds_minus_assign : forall o k k' x q,
    holds o k q ->
    holds (minus_assign k' x o) k (q - (if String.eqb k' k then x else 0)).
Proof.
  intros o k k' x q (v & Hv & Hv'). unfold minus_assign.
  destruct (String.eqb_spec k' k) as [->|Hne].
  - exists (v - x). rewrite get_set_same, Hv. simpl. split; auto. now rewrite Hv'.
  - exists v. rewrite get_set_other by auto. split; auto. rewrite Hv'. lra.
Qed.

Lemma holds_shares : forall (shares : list ExpenseShare.t) o k q,
    holds o k q ->
    holds (fold_left (fun net s => minus_assign (ExpenseShare.userId s)
                                                (ExpenseShare.amount s) net)
                     shares o)
          k
          (q - Qsum (map ExpenseShare.amount
                         (filter (fun s => String.eqb (ExpenseShare.userId s) k) shares))).
Proof.
  induction shares as [|s r IH]; intros o k q H; simpl.
  - eapply holds_comp; [|exact H]. lra.
  - eapply holds_comp; [|apply IH; apply holds_minus_assign; exact H].
    destruct (String.eqb (ExpenseShare.userId s) k); simpl; lra.
Qed.

Lemma holds_applyExpense : forall e o k q,
    holds o k q -> holds (applyExpense o e) k (q + expenseDelta k e).
Proof.
  intros e o k q H. unfold applyExpense, expenseDelta.
  eapply holds_comp; [|apply holds_shares; apply holds_plus_assign; exact H].
  lra.
Qed.

Lemma holds_applySettlement : forall s o k q,
    holds o k q -> holds (applySettlement o s) k (q + settlementDelta k s).
Proof.
  intros s o k q H. unfold applySettlement, settlementDelta.
  eapply holds_comp; [|apply holds_minus_assign; apply holds_plus_assign; exact H].
  lra.
Qed.

Lemma holds_expenses : forall (es : list Expense.t) o k q,
    holds o k q ->
    holds (fold_left applyExpense es o) k (q + Qsum (map (expenseDelta k) es)).
Proof.
  induction es as [|e r IH]; intros o k q H; simpl.
  - eapply holds_comp; [|exact H]. lra.
  - eapply holds_comp; [|apply IH; apply holds_applyExpense; exact H]. lra.
Qed.

Lemma holds_settlements : forall (ss : list Settlement.t) o k q,
    holds o k q ->
    holds (fold_left applySettlement ss o) k (q + Qsum (map (settlementDelta k) ss)).
Proof.
  induction ss as [|s r IH]; intros o k q H; simpl.
  - eapply holds_comp; [|exact H]. lra.
  - eapply holds_comp; [|apply IH; apply holds_applySettlement; exact H]. lra.
Qed.

(** [group.members.forEach(m => net[m.id] = 0)] *)
Lemma initial_net : forall (members : list User.t) (acc : object),
    fold_left (fun net m => set (User.id m) (Num 0) net) members acc
    = fold_left (fun o kv => set (fst kv) (snd kv) o)
                (map (fun id => (id, Num 0)) (map User.id members)) acc.
Proof.
  intros. rewrite map_map.
  now rewrite <- (fold_left_map_entries (fun m : User.t => (User.id m, Num 0))).
Qed.

Lemma holds_initial : forall (group : Group.t) (k : string),
    In k (groupMemberIds group) ->
    holds (fold_left (fun net m => set (User.id m) (Num 0) net) (Group.members group) [])
          k 0.
Proof.
  intros g k H. exists 0. split; [|reflexivity].
  rewrite initial_net. now apply get_fold_set_const.
Qed.

Lemma holds_netBeforeRounding : forall group expenses settlements k,
    In k (groupMemberIds group) ->
    holds (netBeforeRounding group expenses settlements) k
          (netSpec group expenses settlements k).
Proof.
  intros g es ss k H. unfold netBeforeRounding, netSpec.
  eapply holds_comp;
    [|apply holds_settlements; apply holds_expenses; apply holds_initial; exact H].
  unfold expensesOf, settlementsOf. lra.
Qed.

End Balances.

(** ** The ledger *)

Section Ledger.

Lemma applyExpense_post : forall e o,
    applyExpense o e = fold_left post (entriesOfExpense e) o.
Proof.
  intros e o. unfold applyExpense, entriesOfExpense. simpl.
  generalize (plus_assign (Expense.payerId e) (Expense.amount e) o).
  induction (Expense.shares e) as [|s r IH]; intros o'; simpl; auto.
Qed.

Lemma applySettlement_post : forall s o,
    applySettlement o s = fold_left post (entriesOfSettlement s) o.
Proof.
  reflexivity.
Qed.

Lemma fold_applyExpense_post : forall es o,
    fold_left applyExpense es o = fold_left post (flat_map entriesOfExpense es) o.
Proof.
  induction es as [|e r IH]; intros o; auto.
  change (flat_map entriesOfExpense (e :: r))
    with (entriesOfExpense e ++ flat_map entriesOfExpense r).
  rewrite fold_left_app, <- applyExpense_post. apply IH.
Qed.

Lemma fold_applySettlement_post : forall ss o,
    fold_left applySettlement ss o = fold_left post (flat_map entriesOfSettlement ss) o.
Proof.
  induction ss as [|s r IH]; intros o; auto.
  change (flat_map entriesOfSettlement (s :: r))
    with (entriesOfSettlement s ++ flat_map entriesOfSettlement r).
  rewrite fold_left_app, <- applySettlement_post. apply IH.
Qed.

Lemma netBeforeRounding_ledger : forall group expenses settlements,
    netBeforeRounding group expenses settlements
    = fold_left post (ledger group expenses settlements) (initialNet group).
Proof.
  intros. unfold netBeforeRounding, ledger, initialNet, expensesOf, settlementsOf.
  now rewrite fold_left_app, fold_applySettlement_post, fold_applyExpense_post.
Qed.

Lemma In_ledger : forall group expenses settlements k,
    referenced group expenses settlements k
    <-> exists p, In p (ledger group expenses settlements) /\ entryKey p = k.
Proof.
  intros g es ss k. unfold referenced, ledger. split.
  - intros [(e & He & H)|(s & Hs & H)].
    + destruct H as [H|(s & Hs & H)].
      * exists (Credit (Expense.payerId e) (Expense.amount e)). split; auto.
        apply in_or_app. left. apply in_flat_map. exists e. split; auto. now left.
      * exists (Debit (ExpenseShare.userId s) (ExpenseShare.amount s)). split; auto.
        apply in_or_app. left. apply in_flat_map. exists e. split; auto.
        right. apply in_map_iff. eauto.
    + destruct H as [H|H].
      * exists (Credit (Settlement.fromUser s) (Settlement.amount s)). split; auto.
        apply in_or_app. right. apply in_flat_map. exists s. split; auto. now left.
      * exists (Debit (Settlement.toUser s) (Settlement.amount s)). split; auto.
        apply in_or_app. right. apply in_flat_map. exists s. split; auto.
        right. now left.
  - intros (p & Hp & Hk). apply in_app_or in Hp. destruct Hp as [Hp|Hp].
    + left. apply in_flat_map in Hp. destruct Hp as (e & He & Hp).
      exists e. split; auto. destruct Hp as [<-|Hp]; auto.
      right. apply in_map_iff in Hp. destruct Hp as (s & <- & Hs). eauto.
    + right. apply in_flat_map in Hp. destruct Hp as (s & Hs & Hp).
      exists s. split; auto. destruct Hp as [<-|[<-|[]]]; auto.
Qed.

Lemma keys_post : forall o p k,
    In k (keys (post o p)) <-> k = entryKey p \/ In k (keys o).
Proof.
  intros o [k' x|k' x] k; apply In_keys_set.
Qed.

Lemma keys_fold_post : forall l o k,
    In k (keys (fold_left post l o))
    <-> In k (keys o) \/ exists p, In p l /\ entryKey p = k.
Proof.
  induction l as [|p l IH]; intros o k; simpl.
  - split; auto. intros [H|(p & [] & _)]; auto.
  - rewrite IH, keys_post. split.
    + intros [[->|H]|(q & Hq & Hk)]; eauto.
    + intros [H|(q & [->|Hq] & Hk)]; eauto.
Qed.

Lemma keys_initialNet : forall group k,
    In k (keys (initialNet group)) <-> In k (groupMemberIds group).
Proof.
  intros g k. unfold initialNet. rewrite initial_net, keys_fold_set.
  rewrite map_map. simpl. rewrite map_id. unfold groupMemberIds.
  split; [intros [[]|H]; auto | auto].
Qed.

Lemma NoDup_keys_post : forall o p, NoDup (keys o) -> NoDup (keys (post o p)).
Proof.
  intros o [k x|k x] H; now apply NoDup_keys_set.
Qed.

Lemma NoDup_keys_fold_post : forall l o,
    NoDup (keys o) -> NoDup (keys (fold_left post l o)).
Proof.
  induction l as [|p l IH]; intros o H; simpl; auto using NoDup_keys_post.
Qed.

Lemma NoDup_keys_initialNet : forall group, NoDup (keys (initialNet group)).
Proof.
  intros g. unfold initialNet. rewrite initial_net. apply NoDup_fold_set. constructor.
Qed.

Lemma NoDup_keys_netBeforeRounding : forall group expenses settlements,
    NoDup (keys (netBeforeRounding group expenses settlements)).
Proof.
  intros. rewrite netBeforeRounding_ledger.
  apply NoDup_keys_fold_post, NoDup_keys_initialNet.
Qed.

(** The final loop, [for (const k of Object.keys(net)) net[k] = ...], maps
    the rounding over the values. *)
Lemma get_app_skip : forall k (o1 o2 : object),
    ~ In k (keys o1) -> get k (o1 ++ o2) = get k o2.
Proof.
  induction o1 as [|[k1 v1] r IH]; simpl; intros o2 H; auto.
  destruct (String.eqb_spec k k1) as [->|Hne]; [tauto|]. apply IH. tauto.
Qed.

Lemma set_app_skip : forall k v (o1 o2 : object),
    ~ In k (keys o1) -> set k v (o1 ++ o2) = o1 ++ set k v o2.
Proof.
  induction o1 as [|[k1 v1] r IH]; simpl; intros o2 H; auto.
  destruct (String.eqb_spec k k1) as [->|Hne]; [tauto|]. f_equal. apply IH. tauto.
Qed.

Lemma rounding_loop : forall (f : number -> number) (o2 o1 : object),
    NoDup (keys (o1 ++ o2)) ->
    fold_left (fun net k => set k (f (toNumber (get k net))) net) (keys o2)
              (map (fun kv => (fst kv, f (snd kv))) o1 ++ o2)
    = map (fun kv => (fst kv, f (snd kv))) (o1 ++ o2).
Proof.
  induction o2 as [|[k v] r IH]; intros o1 ND; simpl.
  - now rewrite !app_nil_r.
  - assert (Hk : ~ In k (keys (map (fun kv => (fst kv, f (snd kv))) o1))).
    { rewrite keys_map_values. unfold keys in ND. rewrite map_app in ND. simpl in ND.
      apply NoDup_remove_2 in ND. intros H. apply ND. apply in_or_app. now left. }
    rewrite get_app_skip, set_app_skip by exact Hk. simpl.
    rewrite String.eqb_refl. simpl.
    replace (map (fun kv => (fst kv, f (snd kv))) o1 ++ (k, f v) :: r)
      with (map (fun kv => (fst kv, f (snd kv))) (o1 ++ [(k, v)]) ++ r)
      by (rewrite map_app, <- app_assoc; reflexivity).
    rewrite IH by (rewrite <- app_assoc; exact ND).
    now rewrite <- app_assoc.
Qed.

Lemma computeNetByUser_rounded : forall group expenses settlements,
    computeNetByUser group expenses settlements
    = map (fun kv => (fst kv, round2_number (snd kv)))
          (netBeforeRounding group expenses settlements).
Proof.
  intros g es ss.
  change (computeNetByUser g es ss)
    with (fold_left (fun net k => set k (round2_number (toNumber (get k net))) net)
                    (keys (netBeforeRounding g es ss))
                    (netBeforeRounding g es ss)).
  apply (rounding_loop round2_number (netBeforeRounding g es ss) []).
  apply NoDup_keys_netBeforeRounding.
Qed.

Lemma keys_computeNetByUser : forall group expenses settlements,
    keys (computeNetByUser group expenses settlements)
    = keys (netBeforeRounding group expenses settlements).
Proof.
  intros. rewrite computeNetByUser_rounded. apply keys_map_values.
Qed.

Lemma get_computeNetByUser : forall group expenses settlements k,
    get k (computeNetByUser group expenses settlements)
    = option_map round2_number (get k (netBeforeRounding group expenses settlements)).
Proof.
  intros. rewrite computeNetByUser_rounded. apply get_map_values.
Qed.

Lemma holds_computeNetByUser : forall group expenses settlements k,
    In k (groupMemberIds group) ->
    holds (computeNetByUser group expenses settlements) k
          (round2 (netSpec group expenses settlements k)).
Proof.
  intros g es ss k H.
  destruct (holds_netBeforeRounding g es ss k H) as (v & Hv & Hv').
  exists (round2 v). rewrite get_computeNetByUser, Hv. split; auto.
  now apply round2_comp.
Qed.


Lemma NoDup_keys_computeNetByUser : forall group expenses settlements,
    NoDup (keys (computeNetByUser group expenses settlements)).
Proof.
  intros. rewrite keys_computeNetByUser. apply NoDup_keys_netBeforeRounding.
Qed.

(** A property that is absent or [NaN] stays so. *)
Lemma post_NaN : forall o p k,
    get k o = None \/ get k o = Some NaN ->
    get k (post o p) = None \/ get k (post o p) = Some NaN.
Proof.
  intros o p k H.
  destruct (string_dec k (entryKey p)) as [->|Hne].
  - right. destruct p as [k' x|k' x]; simpl in *;
      unfold plus_assign, minus_assign; rewrite get_set_same;
      destruct H as [-> | ->]; reflexivity.
  - destruct p as [k' x|k' x]; simpl in *;
      unfold plus_assign, minus_assign; rewrite get_set_other; auto.
Qed.

Lemma fold_post_NaN : forall l o k,
    get k o = None \/ get k o = Some NaN ->
    get k (fold_left post l o) = None \/ get k (fold_left post l o) = Some NaN.
Proof.
  induction l as [|p l IH]; intros o k H; simpl; auto using post_NaN.
Qed.

(** [postKnown] keeps the keys, and agrees with [post] on the keys that are
    present from the start. *)
Lemma keys_postKnown : forall o p, keys (postKnown o p) = keys o.
Proof.
  intros o p. unfold postKnown. destruct (get (entryKey p) o) eqn:E; auto.
  assert (In (entryKey p) (keys o)) by (apply get_In_keys; congruence).
  destruct p; simpl in *; now apply keys_set_present.
Qed.

Lemma keys_fold_postKnown : forall l o, keys (fold_left postKnown l o) = keys o.
Proof.
  induction l as [|p l IH]; intros o; simpl; auto.
  now rewrite IH, keys_postKnown.
Qed.

Lemma get_post : forall o p k,
    get k (post o p)
    = if String.eqb k (entryKey p)
      then Some (match p with
                 | Credit _ x => add (toNumber (get k o)) (Num x)
                 | Debit _ x => sub (toNumber (get k o)) (Num x)
                 end)
      else get k o.
Proof.
  intros o p k. destruct (String.eqb_spec k (entryKey p)) as [->|Hne].
  - destruct p; simpl; unfold plus_assign, minus_assign; apply get_set_same.
  - destruct p; simpl in *; unfold plus_assign, minus_assign; now apply get_set_other.
Qed.

Lemma post_agree : forall (M : list string) o o' p,
    (forall k, In k (keys o') <-> In k M) ->
    (forall k, In k M -> get k o = get k o') ->
    forall k, In k M -> get k (post o p) = get k (postKnown o' p).
Proof.
  intros M o o' p Hkeys Hagree k Hk. unfold postKnown.
  destruct (get (entryKey p) o') eqn:E.
  - rewrite !get_post, (Hagree k Hk). reflexivity.
  - rewrite get_post. destruct (String.eqb_spec k (entryKey p)) as [->|Hne]; auto.
    apply Hkeys, get_In_keys in Hk. congruence.
Qed.

Lemma fold_post_agree : forall (M : list string) l o o',
    (forall k, In k (keys o') <-> In k M) ->
    (forall k, In k M -> get k o = get k o') ->
    forall k, In k M -> get k (fold_left post l o) = get k (fold_left postKnown l o').
Proof.
  induction l as [|p l IH]; intros o o' Hkeys Hagree k Hk; simpl; auto.
  apply IH; auto.
  - intros k'. now rewrite keys_postKnown.
  - intros k' Hk'. now apply (post_agree M).
Qed.

End Ledger.



(** ** References to unknown members *)

(** C4, as amended: [computeNetByUser] does not drop a reference to an
    identifier that is absent from the member list.  The result has an entry
    for every member and for every identifier referenced by an expense or a
    settlement of the group; the entry of a referenced identifier that is not
    a member is [NaN]; and the balances of the members are those computed
    with every credit and debit of an unknown identifier skipped, a
    computation whose result has entries for members only. *)
Theorem computeNetByUser_unknown_member : forall group expenses settlements,
    (forall k, In k (keys (computeNetByUser group expenses settlements))
               <-> In k (groupMemberIds group)
                   \/ referenced group expenses settlements k)
    /\ (forall k, ~ In k (groupMemberIds group) ->
                  referenced group expenses settlements k ->
                  get k (computeNetByUser group expenses settlements) = Some NaN)
    /\ (forall k, In k (groupMemberIds group) ->
                  get k (computeNetByUser group expenses settlements)
                  = get k (netIgnoringUnknown group expenses settlements))
    /\ onlyMembers group (netIgnoringUnknown group expenses settlements).
Proof.
  intros g es ss.
  assert (Hkeys : forall k, In k (keys (computeNetByUser g es ss))
                            <-> In k (groupMemberIds g) \/ referenced g es ss k).
  { intros k. rewrite keys_computeNetByUser, netBeforeRounding_ledger.
    now rewrite keys_fold_post, keys_initialNet, In_ledger. }
  split; [exact Hkeys|]. split; [|split].
  - intros k Hk Href.
    assert (Hin : In k (keys (computeNetByUser g es ss))) by (apply Hkeys; auto).
    apply get_In_keys in Hin.
    rewrite get_computeNetByUser, netBeforeRounding_ledger in *.
    destruct (fold_post_NaN (ledger g es ss) (initialNet g) k) as [E|E].
    + left. apply get_None_keys. now rewrite keys_initialNet.
    + rewrite E in Hin. simpl in Hin. congruence.
    + rewrite E. reflexivity.
  - intros k Hk. unfold netIgnoringUnknown.
    rewrite get_computeNetByUser, get_map_values, netBeforeRounding_ledger.
    f_equal. apply (fold_post_agree (groupMemberIds g)); auto.
    apply keys_initialNet.
  - intros k Hk. unfold netIgnoringUnknown in Hk.
    rewrite keys_map_values, keys_fold_postKnown in Hk. now apply keys_initialNet.
Qed.

(** The theorem applies to the unknown payer [x]. *)
Lemma computeNetByUser_unknown_member_witness :
  get "x"%string (computeNetByUser Scenario.g2 [UnknownPayer.e] []) = Some NaN.
Proof.
  destruct (computeNetByUser_unknown_member Scenario.g2 [UnknownPayer.e] [])
    as (_ & H & _).
  apply H.
  - simpl. intros [E|[E|[]]]; discriminate.
  - left. exists UnknownPayer.e. split; simpl; auto.
Defined.

(** C4 fails as stated: an expense of the group paid by [x], who is not a
    member, leaves an entry [x: NaN] in the result. *)
Lemma computeNetByUser_unknown_member_counterexample :
  ~ In "x"%string (groupMemberIds Scenario.g2)
  /\ computeNetByUser Scenario.g2 [UnknownPayer.e] []
     = [("a"%string, Num (-1000 # 100)); ("b"%string, Num (0 # 100)); ("x"%string, NaN)]
  /\ ~ onlyMembers Scenario.g2 (computeNetByUser Scenario.g2 [UnknownPayer.e] []).
Proof.
  assert (Hx : ~ In "x"%string (groupMemberIds Scenario.g2)).
  { simpl. intros [H|[H|[]]]; discriminate. }
  split; [exact Hx|]. split; [reflexivity|].
  intros H. apply Hx, H. simpl. auto.
Qed.

(** ** Zero sum *)

Section ZeroSum.
















End ZeroSum.





(** ** The matching loop *)

Section Loop.













Lemma fold_pushParty : forall (net : object) (ds cs : list Party.t),
    fold_left pushParty net (ds, cs) = (ds ++ debtorsOf net, cs ++ creditorsOf net).
Proof.
  induction net as [|[k v] r IH]; intros ds cs.
  - simpl. now rewrite !app_nil_r.
  - change (fold_left pushParty ((k, v) :: r) (ds, cs))
      with (fold_left pushParty r (pushParty (ds, cs) (k, v))).
    change (debtorsOf ((k, v) :: r))
      with (match v with
            | Num x => if Qlt_bool x (- (9 # 1000)) then [Party.mk k (- x)] else []
            | NaN => []
            end ++ debtorsOf r).
    change (creditorsOf ((k, v) :: r))
      with (match v with
            | Num x => if Qlt_bool (9 # 1000) x then [Party.mk k x] else []
            | NaN => []
            end ++ creditorsOf r).
    unfold pushParty. simpl fst. simpl snd.
    destruct v as [|x]; [apply IH|].
    rewrite IH.
    destruct (Qlt_bool x (- (9 # 1000))); destruct (Qlt_bool (9 # 1000) x);
      rewrite <- ?app_assoc; reflexivity.
Qed.

(** [suggestSettlements] runs the loop from [initialState]. *)
Lemma suggestSettlements_loop : forall group expenses settlements,
    suggestSettlements group expenses settlements
    = option_map out
        (runLoop (List.length (debtors (initialState
                                          (computeNetByUser group expenses settlements)))
                  + List.length (creditors (initialState
                                              (computeNetByUser group expenses settlements))))
                 (initialState (computeNetByUser group expenses settlements))).
Proof.
  intros g es ss. unfold suggestSettlements. cbv zeta.
  unfold entries. rewrite fold_pushParty. reflexivity.
Qed.


End Loop.



(** ** Debtors and creditors *)

Section Parties.







End Parties.

(** ** The loop and the matching of the specification *)

Section Refinement.








End Refinement.

(** ** The algorithm of [suggestSettlements] *)

Section Suggest.

(** An entry of the result is the balance of a member, or [NaN]. *)
Lemma computeNetByUser_entry : forall group expenses settlements k v,
    In (k, v) (computeNetByUser group expenses settlements) ->
    (In k (groupMemberIds group) /\ exists q, v = Num q) \/ v = NaN.
Proof.
  intros g es ss k v H.
  apply get_In in H; [|apply NoDup_keys_computeNetByUser].
  rewrite get_computeNetByUser in H.
  destruct (in_dec string_dec k (groupMemberIds g)) as [Hk|Hk].
  - left. split; auto.
    destruct (holds_netBeforeRounding g es ss k Hk) as (x & Hx & _).
    rewrite Hx in *. simpl in *. injection H as <-. eauto.
  - right. rewrite netBeforeRounding_ledger in H.
    destruct (fold_post_NaN (ledger g es ss) (initialNet g) k) as [E|E].
    + left. apply get_None_keys. now rewrite keys_initialNet.
    + rewrite E in H. discriminate.
    + rewrite E in H. simpl in H. congruence.
Qed.

Lemma flat_map_nil : forall (A B : Type) (f : A -> list B) (l : list A),
    (forall x, In x l -> f x = []) -> flat_map f l = [].
Proof.
  induction l as [|x r IH]; intros H; simpl; auto.
  rewrite (H x) by now left. apply IH. intros; apply H; now right.
Qed.

Lemma settled_no_parties : forall group expenses settlements,
    (forall k, In k (groupMemberIds group) ->
               holds (computeNetByUser group expenses settlements) k 0) ->
    debtorsOf (computeNetByUser group expenses settlements) = []
    /\ creditorsOf (computeNetByUser group expenses settlements) = [].
Proof.
  intros g es ss H.
  assert (Hv : forall k v, In (k, Num v) (computeNetByUser g es ss) -> v == 0).
  { intros k v Hin. destruct (computeNetByUser_entry _ _ _ _ _ Hin) as [[Hk _]|?];
      [|discriminate].
    destruct (H k Hk) as (x & Hx & Hx0).
    apply get_In in Hin; [|apply NoDup_keys_computeNetByUser]. congruence. }
  split; apply flat_map_nil; intros [k [|v]] Hin; simpl; auto.
  - rewrite (proj2 (Qlt_bool_false_iff v (- (9 # 1000)))); auto.
    rewrite (Hv k v Hin). discriminate.
  - rewrite (proj2 (Qlt_bool_false_iff (9 # 1000) v)); auto.
    rewrite (Hv k v Hin). discriminate.
Qed.



End Suggest.



(** The scenario of three members with one expense of 99 paid by [a] and
    split 33/33/33: [b] and [c] each pay [a] 33. *)
Lemma suggestSettlements_scenario :
  exists outs,
    suggestSettlements Scenario.g3 [Scenario.e99] [] = Some outs
    /\ sameTransfers outs [Transfer.mk "b" "a" 33; Transfer.mk "c" "a" 33].
Proof.
  eexists. split; [reflexivity|]. repeat constructor.
Qed.

(** ** What the matching pays to whom *)

Section Flows.

Lemma paidBy_cons : forall k t ts,
    paidBy k (t :: ts)
    == (if String.eqb (Transfer.from t) k then Transfer.amount t else 0) + paidBy k ts.
Proof.
  intros k t ts. unfold paidBy. simpl.
  destruct (String.eqb (Transfer.from t) k); simpl; lra.
Qed.










End Flows.

(** ** Settling well-formed data *)

Section Settling.











End Settling.

Section Recomputation.









End Recomputation.





(** * Further properties of the engine *)

(** ** How many transfers are suggested *)

Section TransferCount.




End TransferCount.


(** ** Who pays whom *)

Section TransferShape.







End TransferShape.


(** ** Nobody pays more than their debt *)

Section TransferBounds.

Lemma paidBy_nonneg_cons : forall k t ts,
    0 <= Transfer.amount t -> 0 <= paidBy k ts -> 0 <= paidBy k (t :: ts).
Proof.
  intros k t ts Ht Hts. rewrite paidBy_cons. case_if; lra.
Qed.



End TransferBounds.


(** ** Equal splits *)

Section EqualSplit.










End EqualSplit.



(** ** The range of the allocated amounts *)

Section AllocationRange.








End AllocationRange.



(** X6: when the list of weights is shorter than the list of (distinct)
    members, the weights add up to more than zero and the total does not round
    to zero cents, every member without a weight is allocated [NaN]
    ([base[idx]] is [undefined]). *)
Theorem allocateProportional_missing_weight : forall memberIds weights total idx id,
    NoDup memberIds ->
    0 < sumWeights weights ->
    Math_round (total * 100) <> 0%Z ->
    nth_error memberIds idx = Some id ->
    (List.length weights <= idx)%nat ->
    get id (allocateProportional memberIds weights total) = Some NaN.
Proof.
  intros memberIds weights total idx id ND HS HT Hid Hidx.
  rewrite allocateProportional_distinct_main; [|exact ND|].
  - rewrite (@get_allocationEntries _ _ idx id ND Hid).
    assert (E : nth_error (allocateCents (Math_round (total * 100)) weights) idx = None).
    { apply nth_error_None. now rewrite length_allocateCents. }
    now rewrite E.
  - apply orb_false_iff. split.
    + now apply Qle_bool_false_lt.
    + now apply Z.eqb_neq.
Qed.

(** Three members and two weights. *)
Lemma allocateProportional_missing_weight_witness :
  get "c"%string (allocateProportional ["a"; "b"; "c"]%string [1; 1] 10) = Some NaN.
Proof.
  apply (@allocateProportional_missing_weight _ _ _ 2%nat).
  - repeat constructor; simpl; intuition discriminate.
  - reflexivity.
  - discriminate.
  - reflexivity.
  - simpl. lia.
Defined.

(** ** A larger weight never gets less *)

Section Monotone.







End Monotone.



(** ** Only the ratios of the weights matter *)

Section Scaling.











End Scaling.



(** ** The total of an allocation *)



(** * Properties of the user interface *)

(** ** What the form submits *)

Section FormFacts.











End FormFacts.



(** ** The amounts that the form computes *)

Section FormAllocation.










End FormAllocation.





(** ** Flows through the form *)

Section FormFlows.


End FormFlows.





(** ** The actions of [GroupView] *)

Section GroupViewFacts.


Lemma settled_no_suggestion : forall group expenses settlements,
    (forall k, In k (groupMemberIds group) ->
               holds (computeNetByUser group expenses settlements) k 0) ->
    suggestSettlements group expenses settlements = Some [].
Proof.
  intros g es ss H. destruct (settled_no_parties g es ss H) as [Hd Hc].
  rewrite suggestSettlements_loop. unfold initialState.
  rewrite Hd, Hc. reflexivity.
Qed.





End GroupViewFacts.





(** X17: a group to which no expense and no settlement of the lists belongs
    (whatever the other groups hold) has a balance of exactly 0 for every
    member, an entry for its members only, and no suggested transfer. *)
Theorem untouched_group : forall group expenses settlements,
    expensesOf group expenses = [] ->
    settlementsOf group settlements = [] ->
    (forall k, In k (groupMemberIds group) ->
               holds (computeNetByUser group expenses settlements) k 0)
    /\ (forall k, In k (keys (computeNetByUser group expenses settlements))
                  <-> In k (groupMemberIds group))
    /\ suggestSettlements group expenses settlements = Some [].
Proof.
  intros g es ss He Hs.
  assert (H0 : forall k, In k (groupMemberIds g) ->
                         holds (computeNetByUser g es ss) k 0).
  { intros k Hk. eapply holds_comp; [|apply holds_computeNetByUser; exact Hk].
    unfold netSpec. rewrite He, Hs. reflexivity. }
  split; [exact H0|]. split; [|now apply settled_no_suggestion].
  intros k. rewrite keys_computeNetByUser, netBeforeRounding_ledger, keys_fold_post.
  rewrite keys_initialNet. split; [|now left].
  intros [H|(p & Hp & _)]; [exact H|].
  exfalso. unfold ledger in Hp. fold (expensesOf g es) in Hp.
  fold (settlementsOf g ss) in Hp. rewrite He, Hs in Hp. exact Hp.
Qed.

(** The group of the scenario beside an expense of another group. *)
Lemma untouched_group_witness :
  suggestSettlements Scenario.g2
    [Expense.mk "e" "other" "t" 10 "a" "d" None [ExpenseShare.mk "b" 10]] [] = Some [].
Proof.
  apply (@untouched_group Scenario.g2
           [Expense.mk "e" "other" "t" 10 "a" "d" None [ExpenseShare.mk "b" 10]] []);
    reflexivity.
Defined.

(** ** Creating a group *)

Section CreateGroupFacts.

Variable trim : string -> string.
Variable toLowerCase : string -> string.
Hypothesis trim_idempotent : forall s, trim (trim s) = trim s.

Lemma uniqBy_spec : forall raw seen,
    NoDup (map toLowerCase (uniqBy toLowerCase seen raw))
    /\ (forall n, In n (uniqBy toLowerCase seen raw) ->
                  In n raw /\ ~ In (toLowerCase n) seen).
Proof.
  induction raw as [|n r IH]; intros seen; simpl.
  - split; [constructor | intros n []].
  - destruct (existsb (String.eqb (toLowerCase n)) seen) eqn:E.
    + destruct (IH seen) as [ND Hin]. split; [exact ND|].
      intros m Hm. destruct (Hin m Hm). auto.
    + destruct (IH (toLowerCase n :: seen)) as [ND Hin]. split.
      * simpl. constructor; [|exact ND].
        intros H. apply in_map_iff in H. destruct H as (m & Hm & Hm').
        destruct (Hin m Hm') as [_ Hnot]. apply Hnot. left. now symmetry.
      * intros m [<-|Hm].
        -- split; [now left|]. intros H.
           assert (existsb (String.eqb (toLowerCase n)) seen = true); [|congruence].
           apply existsb_exists. exists (toLowerCase n). split; [exact H|].
           apply String.eqb_refl.
        -- destruct (Hin m Hm) as [H1 H2]. split; [now right|].
           intros H. apply H2. now right.
Qed.

Lemma sort_you_first : forall l : list string,
    NoDup (map toLowerCase l) ->
    forall m,
      In m (sort (fun a b =>
                    (if String.eqb (toLowerCase a) "you" then - (1) else 0)
                    - (if String.eqb (toLowerCase b) "you" then - (1) else 0)) l) ->
      toLowerCase m = "you"%string ->
      hd_error (sort (fun a b =>
                        (if String.eqb (toLowerCase a) "you" then - (1) else 0)
                        - (if String.eqb (toLowerCase b) "you" then - (1) else 0)) l)
      = Some m.
Proof.
  set (cmp := fun a b : string =>
                (if String.eqb (toLowerCase a) "you" then - (1) else 0)
                - (if String.eqb (toLowerCase b) "you" then - (1) else 0)).
  induction l as [|x r IH]; intros ND m Hm Hyou; [contradiction|].
  simpl in ND. inversion ND as [|? ? Hx ND']; subst.
  specialize (IH ND').
  assert (Hperm : forall y, In y (sort cmp r) -> In y r).
  { intros y. apply Permutation_in, sort_perm. }
  simpl in Hm |- *.
  destruct (sort cmp r) as [|y s'] eqn:Es.
  - simpl in Hm |- *. destruct Hm as [->|[]]. reflexivity.
  - simpl in Hm |- *.
    destruct (Qle_bool (cmp x y) 0) eqn:E.
    + simpl. destruct Hm as [->|Hm]; [reflexivity|].
      exfalso. pose proof (IH m Hm Hyou) as Hhd. simpl in Hhd.
      injection Hhd as ->.
      unfold cmp in E. rewrite Hyou in E. simpl in E.
      destruct (String.eqb_spec (toLowerCase x) "you") as [Hxy|Hxy];
        [|simpl in E; discriminate].
      apply Hx. rewrite Hxy, <- Hyou. apply in_map, Hperm. now left.
    + assert (Hy : toLowerCase y = "you"%string).
      { unfold cmp in E.
        destruct (String.eqb_spec (toLowerCase y) "you") as [Hy|Hy]; [exact Hy|].
        destruct (String.eqb (toLowerCase x) "you"); simpl in E; discriminate. }
      assert (Hxn : toLowerCase x <> "you"%string).
      { intros Hxy. apply Hx. rewrite Hxy, <- Hy. apply in_map, Hperm. now left. }
      simpl. destruct Hm as [->|Hm]; [reflexivity|].
      apply (Permutation_in _ (insert_perm cmp x s')) in Hm.
      destruct Hm as [->|Hm]; [contradiction|].
      pose proof (IH m (or_intror Hm) Hyou) as Hhd. exact Hhd.
Qed.

Lemma memberNames_spec : forall membersRaw,
    NoDup (map toLowerCase (memberNames trim toLowerCase membersRaw))
    /\ (forall n, In n (memberNames trim toLowerCase membersRaw) ->
                  n <> ""%string /\ trim n = n)
    /\ (forall m, In m (memberNames trim toLowerCase membersRaw) ->
                  toLowerCase m = "you"%string ->
                  hd_error (memberNames trim toLowerCase membersRaw) = Some m).
Proof.
  intros raw. unfold memberNames. cbv zeta.
  set (l := filter (fun s => negb (String.eqb s "")) (map trim (splitComma raw))).
  destruct (uniqBy_spec l []) as [ND Hin].
  set (cmp := fun a b : string =>
                (if String.eqb (toLowerCase a) "you" then - (1) else 0)
                - (if String.eqb (toLowerCase b) "you" then - (1) else 0)).
  split; [|split].
  - eapply Permutation_NoDup; [|exact ND].
    apply Permutation_map, Permutation_sym, sort_perm.
  - intros n Hn. apply (Permutation_in _ (sort_perm cmp _)) in Hn.
    destruct (Hin n Hn) as [Hl _]. unfold l in Hl.
    apply filter_In in Hl. destruct Hl as [Hl Hne]. split.
    + intros ->. discriminate.
    + apply in_map_iff in Hl. destruct Hl as (s & <- & _). apply trim_idempotent.
  - intros m Hm Hyou. now apply sort_you_first.
Qed.

Lemma names_mapi_from : forall (uid : nat -> string) (l : list string) (k : nat),
    map User.name (mapi_from k (fun k n0 => User.mk (uid (S k)) n0) l) = l.
Proof.
  intros uid l. induction l as [|x r IH]; intros k; simpl; [reflexivity|].
  f_equal. apply IH.
Qed.

Lemma newGroup_spec : forall uid name currency membersRaw,
    let g := newGroup trim toLowerCase uid name currency membersRaw in
    Group.members g <> []
    /\ NoDup (map (fun m => toLowerCase (User.name m)) (Group.members g))
    /\ you trim toLowerCase g = nth_error (Group.members g) 0
    /\ ((forall i j, uid i = uid j -> i = j) -> NoDup (groupMemberIds g)).
Proof.
  intros uid name currency raw g.
  destruct (memberNames_spec raw) as (ND & Htrim & Hyou).
  unfold g, newGroup. cbv zeta. cbn [Group.members].
  set (names := memberNames trim toLowerCase raw) in *.
  unfold mapi.
  destruct names as [|n r] eqn:En.
  - simpl. repeat split.
    + discriminate.
    + repeat constructor. intros [].
    + unfold you. simpl. now destruct (String.eqb (toLowerCase (trim "You")) "you").
    + intros _. unfold groupMemberIds. simpl. repeat constructor. intros [].
  - assert (Hlen : (List.length (mapi_from 0 (fun k n0 => User.mk (uid (S k)) n0) (n :: r))
                    =? 0)%nat = false) by reflexivity.
    rewrite Hlen.
    assert (Hnames : forall k, map User.name (mapi_from k (fun k n0 => User.mk (uid (S k)) n0)
                                                        (n :: r)) = n :: r).
    { intros k. apply names_mapi_from. }
    split; [discriminate|]. split; [|split].
    + rewrite <- (map_map User.name toLowerCase), Hnames. exact ND.
    + unfold you. cbn [Group.members].
      destruct (find _ _) as [m|] eqn:Ef; [|reflexivity].
      pose proof (find_some _ _ Ef) as [Hm Hp].
      apply String.eqb_eq in Hp.
      assert (Hin : In (User.name m) (n :: r)).
      { rewrite <- (Hnames 0%nat). now apply in_map. }
      destruct (Htrim _ Hin) as [_ Ht]. rewrite Ht in Hp.
      pose proof (Hyou _ Hin Hp) as Hhd. simpl in Hhd. injection Hhd as Hn.
      destruct (Htrim n (or_introl eq_refl)) as [_ Htn].
      assert (Hfirst : String.eqb (toLowerCase (trim n)) "you" = true).
      { rewrite Htn, Hn, Hp. reflexivity. }
      simpl in Ef. rewrite Hfirst in Ef. injection Ef as <-. reflexivity.
    + intros Hinj. unfold groupMemberIds. cbn [Group.members].
      rewrite map_mapi_from. cbn [User.id].
      assert (G : forall (l : list string) (k : nat),
                 NoDup (mapi_from k (fun i _ => uid (S i)) l)).
      { induction l as [|x l' IH]; intros k; simpl; constructor; [|apply IH].
        intros H. apply In_mapi_from in H. destruct H as (i & y & _ & Hi).
        apply Hinj in Hi. lia. }
      apply G.
Qed.

(** X18: [createGroupLocal] appends one group and leaves the expenses and
    settlements alone; the new group has at least one member, no two of its
    members have names that are equal up to case, the member that [GroupCard]
    reports on ([you]) is always its first member (a member named [you], in
    any case, is moved to the front), and its members have distinct
    identifiers as long as [uid()] never returns the same value twice. *)
Theorem createGroupLocal_members : forall uid name currency membersRaw prev,
    let g := newGroup trim toLowerCase uid name currency membersRaw in
    let db := createGroupLocal trim toLowerCase uid name currency membersRaw prev in
    DB.groups db = DB.groups prev ++ [g]
    /\ DB.expenses db = DB.expenses prev
    /\ DB.settlements db = DB.settlements prev
    /\ Group.members g <> []
    /\ NoDup (map (fun m => toLowerCase (User.name m)) (Group.members g))
    /\ you trim toLowerCase g = nth_error (Group.members g) 0
    /\ ((forall i j, uid i = uid j -> i = j) -> NoDup (groupMemberIds g)).
Proof.
  intros uid name currency raw prev g db.
  split; [reflexivity|]. split; [reflexivity|]. split; [reflexivity|].
  apply newGroup_spec.
Qed.

End CreateGroupFacts.

(** The members [Aarav, you, Mira], with functions that leave the strings as
    they are. *)
Lemma createGroupLocal_members_witness :
  you (fun s => s) (fun s => s)
      (newGroup (fun s => s) (fun s => s) (fun _ => "u"%string) "" "INR" "Aarav,you,Mira")
  = Some (User.mk "u" "you").
Proof.
  apply (@createGroupLocal_members (fun s => s) (fun s => s) (fun s => eq_refl)
           (fun _ => "u"%string) ""%string "INR"%string "Aarav,you,Mira"%string
           (DB.mk [] [] [])).
Defined.

(** ** The tiles of the members *)

Section Tiles.


End Tiles.


